(** * libuspin: the image-spec loader and the operation dispatcher

    A shallow embedding of [src/libuspin/main.go].  The two exported
    functions, [NewImageSpec] and [ApplyOperations], talk to collaborators
    (the configuration parser, the path resolver, the package-list parser and
    the package manager).  Each function is embedded as a finite tree of
    collaborator calls; running a tree against an implementation of the
    collaborators threads the collaborator's state and records every call
    together with what it answered. *)

From Stdlib Require Import Ascii String List Bool Arith Lia.
Import ListNotations.
Open Scope string_scope.
Open Scope list_scope.

(** ** Go values shared by both functions *)

(** A Go [error] value.  The package declares two sentinels with
    [errors.New]; [fmt.Errorf] builds a value from its formatted message; any
    other value is one made by a collaborator and is only ever passed along. *)
Inductive error : Type :=
| ErrNotEnoughOps
| ErrUnknownOperation
| Errorf (msg : string)
| CollaboratorError (msg : string).

(** Go's [(T, error)] return pair, read the way the callers read it: the
    value counts only when the error is nil. *)
Inductive result (T : Type) : Type :=
| Ok (v : T)
| Err (err : error).
Arguments Ok {T} v.
Arguments Err {T} err.

(** [strings.HasSuffix]:
    [len(s) >= len(suffix) && s[len(s)-len(suffix):] == suffix]. *)
Definition HasSuffix (s suffix : string) : bool :=
  Nat.leb (String.length suffix) (String.length s) &&
  String.eqb
    (substring (String.length s - String.length suffix) (String.length suffix) s)
    suffix.

(** ** Programs over an interface of collaborator calls *)

Module Go.

(** Why a run panics: an unchecked type assertion on a value of another
    dynamic type, or a field read through a nil pointer. *)
Inductive panic : Type :=
| FailedAssertion
| NilDereference.

Section Programs.
Variable E : Type.            (* the calls a program may make *)
Variable R : E -> Type.       (* what each call answers *)

(** A program either returns, makes a call and continues with its answer,
    or panics. *)
Inductive prog (A : Type) : Type :=
| Return (a : A)
| Call (e : E) (k : R e -> prog A)
| Panic (why : panic).
Arguments Return {A} a.
Arguments Call {A} e k.
Arguments Panic {A} why.

Fixpoint bind {A B : Type} (p : prog A) (f : A -> prog B) : prog B :=
  match p with
  | Return a => f a
  | Call e k => Call e (fun r => bind (k r) f)
  | Panic why => Panic why
  end.

Definition call (e : E) : prog (R e) := Call e (fun r => Return r).

(** One line of the call log: the call and the answer it got. *)
Record logged : Type := Log { called : E; answer : R called }.

(** How a run ends. *)
Inductive outcome (A : Type) : Type :=
| Done (a : A)
| Panicked.
Arguments Done {A} a.
Arguments Panicked {A}.

(** No panic anywhere in the tree, whatever the collaborators answer. *)
Fixpoint panic_free {A : Type} (p : prog A) : Prop :=
  match p with
  | Return _ => True
  | Call _ k => forall r, panic_free (k r)
  | Panic _ => False
  end.

(** No failed type assertion anywhere in the tree; a nil dereference may
    remain. *)
Fixpoint assertion_safe {A : Type} (p : prog A) : Prop :=
  match p with
  | Return _ => True
  | Call _ k => forall r, assertion_safe (k r)
  | Panic FailedAssertion => False
  | Panic NilDereference => True
  end.

Section Run.
Variable S : Type.                                  (* collaborator state *)
Variable handle : forall e : E, S -> R e * S.       (* its implementation *)

(** Runs [p] from state [s]: the outcome, the final state and the calls
    made, oldest first. *)
Fixpoint run {A : Type} (p : prog A) (s : S) : outcome A * S * list logged :=
  match p with
  | Return a => (Done a, s, [])
  | Call e k =>
      let (r, s1) := handle e s in
      let '(o, s2, tr) := run (k r) s1 in
      (o, s2, Log e r :: tr)
  | Panic _ => (Panicked, s, [])
  end.

Definition outcome_of {A : Type} (x : outcome A * S * list logged) : outcome A :=
  fst (fst x).
Definition state_of {A : Type} (x : outcome A * S * list logged) : S :=
  snd (fst x).
Definition log_of {A : Type} (x : outcome A * S * list logged) : list logged :=
  snd x.
End Run.
End Programs.

Arguments prog {E} R A.
Arguments logged {E} R.
Arguments Return {E R A} a.
Arguments Call {E R A} e k.
Arguments Panic {E R A} why.
Arguments Done {A} a.
Arguments Panicked {A}.
Arguments Log {E R} called answer.
Arguments call {E R} e.
Arguments called {E R} l.
Arguments answer {E R} l.
Arguments bind {E R A B} p f.
Arguments run {E R S} handle {A} p s.
Arguments panic_free {E R A} p.
Arguments assertion_safe {E R A} p.
Arguments outcome_of {E R S A} x.
Arguments state_of {E R S A} x.
Arguments log_of {E R S A} x.
End Go.
Import Go.

Declare Scope prog_scope.
Delimit Scope prog_scope with prog.
Notation "x <- p ;; q" := (bind p (fun x => q))
  (at level 61, p at next level, right associativity) : prog_scope.
Open Scope prog_scope.

(** ** Package [spec]: operations *)

(** Modelled from the spec: the declarations of [spec.OpRepo], [spec.OpGroup],
    [spec.OpPackage] and of the [spec.Operation] interface are not among the
    sources; the records below carry exactly the fields [ApplyOperations]
    reads.  In Go the operations are pointers to these structs. *)
Record OpRepo : Type := { RepoName : string; RepoURI : string }.
Record OpGroup : Type := { GroupName : string; GroupIgnoreSafety : bool }.
Record OpPackage : Type := { Name : string; PackageIgnoreSafety : bool }.

(** Modelled from the spec: a value of interface type [spec.Operation], by its
    dynamic type.  [IsOpRepo repo] is a non-nil [*spec.OpRepo] pointing at
    [repo], [NilOpRepo] the nil pointer of that type, which the type switch
    and the type assertions take for a [*spec.OpRepo] like any other; the
    same for groups and packages.  [OtherOperation] stands for every dynamic
    type the type switch of [ApplyOperations] has no case for (the nil
    interface included). *)
Inductive Operation : Type :=
| IsOpRepo (repo : OpRepo)
| IsOpGroup (group : OpGroup)
| IsOpPackage (package : OpPackage)
| OtherOperation (dynamic_type : string)
| NilOpRepo
| NilOpGroup
| NilOpPackage.

(** Modelled from the spec: [spec.OpStack], an ordered sequence of operations. *)
Definition OpStack : Type := list Operation.

(** ** Package [pkg]: the package manager *)

(** Modelled from the spec: the three methods of the [pkg.Manager] interface
    that [ApplyOperations] calls.  An implementation has a state [M] that each
    method may change, and answers nil ([None]) or an error. *)
Class Manager (M : Type) : Type := {
  AddRepo : string -> string -> M -> option error * M;
  InstallGroups : bool -> list string -> M -> option error * M;
  InstallPackages : bool -> list string -> M -> option error * M
}.

(** The calls [ApplyOperations] can make on its manager. *)
Inductive ManagerCall : Type :=
| CallAddRepo (name uri : string)
| CallInstallGroups (ignoreSafety : bool) (names : list string)
| CallInstallPackages (ignoreSafety : bool) (names : list string).

Definition ManagerAnswer (_ : ManagerCall) : Type := option error.

Definition manager_handle {M : Type} `{Manager M} (c : ManagerCall) (m : M)
  : ManagerAnswer c * M :=
  match c with
  | CallAddRepo name uri => AddRepo name uri m
  | CallInstallGroups ignoreSafety names => InstallGroups ignoreSafety names m
  | CallInstallPackages ignoreSafety names => InstallPackages ignoreSafety names m
  end.

Definition apply_prog : Type -> Type := prog ManagerAnswer.

(** ** [ApplyOperations] *)

(** The unchecked type assertions [op.( *spec.OpRepo)] and its two siblings:
    they give the pointer, nil or not, and panic when the dynamic type
    differs. *)
Definition assert_OpRepo (op : Operation) : apply_prog (option OpRepo) :=
  match op with
  | IsOpRepo repo => Return (Some repo)
  | NilOpRepo => Return None
  | _ => Panic FailedAssertion
  end.
Definition assert_OpGroup (op : Operation) : apply_prog (option OpGroup) :=
  match op with
  | IsOpGroup group => Return (Some group)
  | NilOpGroup => Return None
  | _ => Panic FailedAssertion
  end.
Definition assert_OpPackage (op : Operation) : apply_prog (option OpPackage) :=
  match op with
  | IsOpPackage package => Return (Some package)
  | NilOpPackage => Return None
  | _ => Panic FailedAssertion
  end.

(** A field read [p.f] through the pointer [p]: it panics when [p] is nil. *)
Definition deref_field {T A : Type} (p : option T) (f : T -> A) : apply_prog A :=
  match p with
  | Some v => Return (f v)
  | None => Panic NilDereference
  end.

(** [for _, op := range ops] of the [*spec.OpRepo] case, with its
    [return nil] after the loop.  The arguments of [AddRepo] are read
    before the call. *)
Fixpoint add_repos (ops : list Operation) : apply_prog (option error) :=
  match ops with
  | [] => Return None
  | op :: rest =>
      repo <- assert_OpRepo op ;;
      name <- deref_field repo RepoName ;;
      uri <- deref_field repo RepoURI ;;
      err <- call (CallAddRepo name uri) ;;
      match err with
      | Some e => Return (Some e)
      | None => add_repos rest
      end
  end.

(** The loop of the [*spec.OpGroup] case: [names = append(names, ...)]. *)
Fixpoint collect_group_names (ops : list Operation) (names : list string)
  : apply_prog (list string) :=
  match ops with
  | [] => Return names
  | op :: rest =>
      group <- assert_OpGroup op ;;
      name <- deref_field group GroupName ;;
      collect_group_names rest (names ++ [name])
  end.

(** The loop of the [*spec.OpPackage] case. *)
Fixpoint collect_package_names (ops : list Operation) (names : list string)
  : apply_prog (list string) :=
  match ops with
  | [] => Return names
  | op :: rest =>
      package <- assert_OpPackage op ;;
      name <- deref_field package Name ;;
      collect_package_names rest (names ++ [name])
  end.

Definition ApplyOperations (ops : list Operation) : apply_prog (option error) :=
  match ops with
  | [] => Return (Some ErrNotEnoughOps)
  | op0 :: _ =>
      match op0 with
      | IsOpRepo _ | NilOpRepo =>
          add_repos ops
      | IsOpGroup _ | NilOpGroup =>
          group0 <- assert_OpGroup op0 ;;
          ignoreSafety <- deref_field group0 GroupIgnoreSafety ;;
          names <- collect_group_names ops [] ;;
          call (CallInstallGroups ignoreSafety names)
      | IsOpPackage _ | NilOpPackage =>
          package0 <- assert_OpPackage op0 ;;
          ignoreSafety <- deref_field package0 PackageIgnoreSafety ;;
          names <- collect_package_names ops [] ;;
          call (CallInstallPackages ignoreSafety names)
      | OtherOperation _ =>
          Return (Some ErrUnknownOperation)
      end
  end.

(** Running the dispatcher against a manager in state [m]. *)
Definition apply_on {M : Type} `{Manager M} (ops : list Operation) (m : M)
  : outcome (option error) * M * list (logged ManagerAnswer) :=
  run manager_handle (ApplyOperations ops) m.

(** ** Package [config] and the [ImageSpec] type *)

(** Modelled from the spec: [config.ImageConfiguration] is declared outside
    the sources; the loader reads one field of it, [conf.Image.Packages], the
    package-list filename relative to the spec file. *)
Record ImageSection : Type := { Packages : string }.
Record ImageConfiguration : Type := { Image : ImageSection }.

(** [type ImageSpec struct].  [Stack] and [Config] are pointers, nil in the
    zero value. *)
Record ImageSpec : Type := {
  Stack : option OpStack;
  Config : option ImageConfiguration;
  BaseDir : string
}.

(** [&ImageSpec{}] *)
Definition zero_ImageSpec : ImageSpec :=
  {| Stack := None; Config := None; BaseDir := "" |}.

(** [is.BaseDir = dir] on the local [is] (written [is_] below) *)
Definition set_BaseDir (is_ : ImageSpec) (dir : string) : ImageSpec :=
  {| Stack := Stack is_; Config := Config is_; BaseDir := dir |}.

(** ** The loader's collaborators *)

(** The three fallible collaborators of [NewImageSpec], over the state [W]
    of the world they read: [config.New], [filepath.Abs], and
    [parser.Parse] followed by reading [parser.Stack]. *)
Class Collaborators (W : Type) : Type := {
  config_New : string -> W -> result ImageConfiguration * W;
  filepath_Abs : string -> W -> result string * W;
  parser_Parse : string -> W -> result OpStack * W
}.

Inductive LoaderCall : Type :=
| CallConfigNew (path : string)
| CallFilepathAbs (path : string)
| CallParserParse (path : string).

Definition LoaderAnswer (c : LoaderCall) : Type :=
  match c with
  | CallConfigNew _ => result ImageConfiguration
  | CallFilepathAbs _ => result string
  | CallParserParse _ => result OpStack
  end.

Definition loader_handle {W : Type} `{Collaborators W} (c : LoaderCall) (w : W)
  : LoaderAnswer c * W :=
  match c with
  | CallConfigNew path => config_New path w
  | CallFilepathAbs path => filepath_Abs path w
  | CallParserParse path => parser_Parse path w
  end.

Definition load_prog : Type -> Type := prog LoaderAnswer.

(** ** [NewImageSpec] *)

Section Loader.
(** [filepath.Dir] and [filepath.Join] are lexical: they read no state and
    cannot fail. *)
Variable filepath_Dir : string -> string.
Variable filepath_Join : string -> string -> string.

Definition NewImageSpec (spinFile : string) : load_prog (result ImageSpec) :=
  let is_ := zero_ImageSpec in
  if negb (HasSuffix spinFile ".spin") then
    Return (Err (Errorf ("Not a .spin file: " ++ spinFile)))
  else
    (* Try loading the configuration first *)
    loaded <- call (CallConfigNew spinFile) ;;
    match loaded with
    | Err err => Return (Err err)
    | Ok conf =>
        (* Grab the base directory from the .spin file *)
        resolved <- call (CallFilepathAbs (filepath_Dir spinFile)) ;;
        match resolved with
        | Err err => Return (Err err)
        | Ok dir =>
            let is_ := set_BaseDir is_ dir in
            (* Load packages file relative to the spin file *)
            let pkgsFile := filepath_Join (BaseDir is_) (Packages (Image conf)) in
            parsed <- call (CallParserParse pkgsFile) ;;
            match parsed with
            | Err err => Return (Err err)
            | Ok stack =>
                (* a fresh struct literal that lists Stack and Config only:
                   BaseDir keeps its zero value *)
                Return (Ok {| Stack := Some stack;
                              Config := Some conf;
                              BaseDir := "" |})
            end
        end
    end.

(** Running the loader against collaborators in state [w]. *)
Definition load_on {W : Type} `{Collaborators W} (spinFile : string) (w : W)
  : outcome (result ImageSpec) * W * list (logged LoaderAnswer) :=
  run loader_handle (NewImageSpec spinFile) w.
End Loader.

(** The path handed to the package-list parser, if the log has such a call. *)
Fixpoint parsed_path (tr : list (logged LoaderAnswer)) : option string :=
  match tr with
  | [] => None
  | l :: rest =>
      match called l with
      | CallParserParse path => Some path
      | _ => parsed_path rest
      end
  end.

(** ** Vocabulary of the properties *)

(** The variant kind of an operation, as the type switch sees it. *)
Inductive OpKind : Type := RepoKind | GroupKind | PackageKind | OtherKind.

Definition kind_of (op : Operation) : OpKind :=
  match op with
  | IsOpRepo _ | NilOpRepo => RepoKind
  | IsOpGroup _ | NilOpGroup => GroupKind
  | IsOpPackage _ | NilOpPackage => PackageKind
  | OtherOperation _ => OtherKind
  end.

(** The element is not a nil pointer. *)
Definition non_nil (op : Operation) : bool :=
  match op with
  | NilOpRepo | NilOpGroup | NilOpPackage => false
  | _ => true
  end.

Definition OpKind_eqb (a b : OpKind) : bool :=
  match a, b with
  | RepoKind, RepoKind | GroupKind, GroupKind
  | PackageKind, PackageKind | OtherKind, OtherKind => true
  | _, _ => false
  end.

(** Every element has the kind of the first one. *)
Definition homogeneous (ops : list Operation) : bool :=
  match ops with
  | [] => true
  | op0 :: _ => forallb (fun op => OpKind_eqb (kind_of op) (kind_of op0)) ops
  end.

(** The add-repository call an element stands for, when it is a RepoOp. *)
Definition repo_call (op : Operation) : option ManagerCall :=
  match op with
  | IsOpRepo repo => Some (CallAddRepo (RepoName repo) (RepoURI repo))
  | _ => None
  end.

Definition is_AddRepo (c : ManagerCall) : bool :=
  match c with CallAddRepo _ _ => true | _ => false end.
Definition is_InstallGroups (c : ManagerCall) : bool :=
  match c with CallInstallGroups _ _ => true | _ => false end.
Definition is_InstallPackages (c : ManagerCall) : bool :=
  match c with CallInstallPackages _ _ => true | _ => false end.

(** What a manager call answered. *)
Definition answered (l : logged ManagerAnswer) : option error := answer l.

(** The RepoOp behaviour, said of one run on [ops]:
    - the calls are add-repository calls for the elements of [ops] in list
      order, one per element and none twice, each with that element's own
      name and URI;
    - a call that answers an error is the last one, and its error is what
      the run returns;
    - when no call answers an error, every element got its call and the run
      returns nil. *)
Definition repo_dispatch {M : Type}
  (ops : list Operation)
  (x : outcome (option error) * M * list (logged ManagerAnswer)) : Prop :=
  map (fun l => Some (called l)) (log_of x)
    = firstn (length (log_of x)) (map repo_call ops)
  /\ (forall before l after e,
        log_of x = before ++ l :: after ->
        answered l = Some e ->
        after = [] /\ outcome_of x = Done (Some e))
  /\ ((forall l, In l (log_of x) -> answered l = None) ->
      length (log_of x) = length ops /\ outcome_of x = Done None).

(** ** Fakes used to exercise the two functions *)

Module Fake.

(** A manager that answers from a script, one entry per call, and nil once
    the script is used up. *)
Record Scripted : Type := { script : list (option error) }.

Definition next_answer (m : Scripted) : option error * Scripted :=
  match script m with
  | [] => (None, m)
  | a :: rest => (a, {| script := rest |})
  end.

#[export] Instance Scripted_Manager : Manager Scripted := {
  AddRepo _ _ := next_answer;
  InstallGroups _ _ := next_answer;
  InstallPackages _ _ := next_answer
}.

(** A small file system: configuration files and package lists by path,
    and the working directory ([None] when it cannot be determined). *)
Record Files : Type := {
  configs : list (string * ImageConfiguration);
  package_lists : list (string * OpStack);
  cwd : option string
}.

Fixpoint lookup {V : Type} (path : string) (files : list (string * V)) : option V :=
  match files with
  | [] => None
  | (p, v) :: rest => if String.eqb p path then Some v else lookup path rest
  end.

Definition read {V : Type} (path : string) (files : list (string * V)) : result V :=
  match lookup path files with
  | Some v => Ok v
  | None => Err (CollaboratorError ("open " ++ path ++ ": no such file or directory"))
  end.

(** Lexical joining and splitting, as [filepath.Join] and [filepath.Dir] do
    them on Unix for paths without empty, [.] or [..] elements and without a
    trailing separator. *)
Definition Join (a b : string) : string :=
  if String.eqb a "" then b
  else if String.eqb b "" then a
  else a ++ "/" ++ b.

Fixpoint before_last_separator (s : string) : option string :=
  match s with
  | EmptyString => None
  | String c rest =>
      match before_last_separator rest with
      | Some d => Some (String c d)
      | None => if Ascii.eqb c "/"%char then Some EmptyString else None
      end
  end.

Definition Dir (path : string) : string :=
  match before_last_separator path with
  | None => "."
  | Some EmptyString => "/"
  | Some d => d
  end.

Definition Abs (path : string) (fs : Files) : result string :=
  if prefix "/" path then Ok path
  else match cwd fs with
       | Some d => Ok (Join d path)
       | None => Err (CollaboratorError "getwd: no such file or directory")
       end.

#[export] Instance Files_Collaborators : Collaborators Files := {
  config_New path fs := (read path (configs fs), fs);
  filepath_Abs path fs := (Abs path fs, fs);
  parser_Parse path fs := (read path (package_lists fs), fs)
}.

Definition solus_conf : ImageConfiguration :=
  {| Image := {| Packages := "packages" |} |}.

Definition solus_stack : OpStack :=
  [IsOpRepo {| RepoName := "Solus"; RepoURI := "https://packages.example/index.xml" |}].

(** A complete spec: [/srv/images/solus.spin] with its package list. *)
Definition solus_files : Files :=
  {| configs := [("/srv/images/solus.spin", solus_conf)];
     package_lists := [("/srv/images/packages", solus_stack)];
     cwd := Some "/root" |}.

(** The same spec file, read through a relative path while the working
    directory cannot be determined. *)
Definition no_cwd_files : Files :=
  {| configs := [("solus.spin", solus_conf)];
     package_lists := [("packages", solus_stack)];
     cwd := None |}.

(** The spec file without its package list. *)
Definition no_packages_files : Files :=
  {| configs := [("/srv/images/solus.spin", solus_conf)];
     package_lists := [];
     cwd := Some "/root" |}.

Definition always_nil : Scripted := {| script := [] |}.
Definition failing_first : Scripted :=
  {| script := [Some (CollaboratorError "repository unreachable")] |}.

Definition repo_a : OpRepo := {| RepoName := "a"; RepoURI := "u1" |}.
Definition repo_b : OpRepo := {| RepoName := "b"; RepoURI := "u2" |}.
Definition group_g1 : OpGroup := {| GroupName := "g1"; GroupIgnoreSafety := true |}.
Definition group_g2 : OpGroup := {| GroupName := "g2"; GroupIgnoreSafety := true |}.
Definition package_p1 : OpPackage := {| Name := "p1"; PackageIgnoreSafety := false |}.
Definition package_p2 : OpPackage := {| Name := "p2"; PackageIgnoreSafety := false |}.

(** A list that starts with a RepoOp and goes on with a GroupOp. *)
Definition repo_then_group : list Operation :=
  [IsOpRepo repo_a; IsOpGroup group_g1].

(** A GroupOp list with a stray PackageOp, and a PackageOp list with a stray
    RepoOp. *)
Definition group_then_package : list Operation :=
  [IsOpGroup group_g1; IsOpPackage package_p1].
Definition package_then_repo : list Operation :=
  [IsOpPackage package_p1; IsOpPackage package_p2; IsOpRepo repo_a].

(** The same groups as [group_g1], [group_g2] with the second flag cleared. *)
Definition group_g2_safe : OpGroup :=
  {| GroupName := "g2"; GroupIgnoreSafety := false |}.
Definition package_p2_unsafe : OpPackage :=
  {| Name := "p2"; PackageIgnoreSafety := true |}.

(** A manager that accepts the first call and fails the second. *)
Definition failing_second : Scripted :=
  {| script := [None; Some (CollaboratorError "repository unreachable")] |}.

End Fake.

(** ** [HasSuffix] tests for a trailing occurrence *)

Lemma substring_whole (s : string) : substring 0 (String.length s) s = s.
Proof. induction s as [ | c s IH]; simpl; [reflexivity | now rewrite IH]. Qed.

Lemma substring_after_prefix (front back : string) :
  substring (String.length front) (String.length back) (front ++ back)%string = back.
Proof.
  induction front as [ | c front IH]; simpl.
  - apply substring_whole.
  - exact IH.
Qed.

Lemma length_append (a b : string) :
  String.length (a ++ b)%string = String.length a + String.length b.
Proof. induction a as [ | c a IH]; simpl; [reflexivity | now rewrite IH]. Qed.

Lemma split_at (n : nat) (s : string) :
  n <= String.length s ->
  s = (substring 0 n s ++ substring n (String.length s - n) s)%string.
Proof.
  revert s; induction n as [ | n IH]; intros s Hn.
  - rewrite Nat.sub_0_r, substring_whole.
    destruct s; reflexivity.
  - destruct s as [ | c s]; simpl in *; [lia | ].
    rewrite <- IH by lia; reflexivity.
Qed.

Lemma HasSuffix_ends_with (s suffix : string) :
  HasSuffix s suffix = true <-> exists front, s = (front ++ suffix)%string.
Proof.
  unfold HasSuffix; rewrite andb_true_iff, Nat.leb_le, String.eqb_eq.
  split.
  - intros [Hlen Hsub].
    exists (substring 0 (String.length s - String.length suffix) s).
    rewrite <- Hsub at 2.
    rewrite (split_at (String.length s - String.length suffix) s) at 1 by lia.
    repeat f_equal; lia.
  - intros [front ->].
    rewrite length_append; split; [lia | ].
    replace (String.length front + String.length suffix - String.length suffix)
      with (String.length front) by lia.
    apply substring_after_prefix.
Qed.

Example HasSuffix_spin : HasSuffix "/srv/images/solus.spin" ".spin" = true.
Proof. reflexivity. Qed.

Example HasSuffix_short : HasSuffix "spin" ".spin" = false.
Proof. reflexivity. Qed.

(** ** Facts about programs and runs *)

Section RunFacts.
Context {E : Type} {R : E -> Type} {S : Type}.
Variable handle : forall e : E, S -> R e * S.

Lemma run_bind {A B : Type} (p : prog R A) (f : A -> prog R B) (s : S) :
  run handle (bind p f) s =
  match run handle p s with
  | (Done a, s1, tr1) =>
      let '(o, s2, tr2) := run handle (f a) s1 in (o, s2, tr1 ++ tr2)
  | (Panicked, s1, tr1) => (Panicked, s1, tr1)
  end.
Proof.
  revert s; induction p as [a | e k IH | why]; intros s; simpl.
  - destruct (run handle (f a) s) as [[o s2] tr2]; reflexivity.
  - destruct (handle e s) as [r s1].
    rewrite IH.
    destruct (run handle (k r) s1) as [[[a | ] s2] tr1]; simpl.
    + destruct (run handle (f a) s2) as [[o s3] tr2]; reflexivity.
    + reflexivity.
  - reflexivity.
Qed.

Lemma panic_free_bind {A B : Type} (p : prog R A) (f : A -> prog R B) :
  panic_free p -> (forall a, panic_free (f a)) -> panic_free (bind p f).
Proof.
  intros Hp Hf; induction p as [a | e k IH | why]; simpl in *.
  - apply Hf.
  - intros r; apply IH, Hp.
  - contradiction.
Qed.

(** A tree without a panic node runs to a result against any collaborator. *)
Lemma panic_free_runs {A : Type} (p : prog R A) :
  panic_free p -> forall s, exists a, outcome_of (run handle p s) = Done a.
Proof.
  induction p as [a | e k IH | why]; simpl; intros Hp s.
  - exists a; reflexivity.
  - destruct (handle e s) as [r s1].
    destruct (IH r (Hp r) s1) as [a Ha].
    exists a.
    destruct (run handle (k r) s1) as [[o s2] tr]; exact Ha.
  - contradiction.
Qed.
End RunFacts.

(** ** The operation dispatcher *)

Section Dispatcher.
Context {M : Type} `{Manager M}.

Lemma collect_group_names_groups (groups : list OpGroup) (names : list string) :
  collect_group_names (map IsOpGroup groups) names
  = Return (names ++ map GroupName groups).
Proof.
  revert names; induction groups as [ | g rest IH]; intros names; simpl.
  - now rewrite app_nil_r.
  - rewrite IH, <- app_assoc; reflexivity.
Qed.

Lemma collect_package_names_packages (packages : list OpPackage) (names : list string) :
  collect_package_names (map IsOpPackage packages) names
  = Return (names ++ map Name packages).
Proof.
  revert names; induction packages as [ | p rest IH]; intros names; simpl.
  - now rewrite app_nil_r.
  - rewrite IH, <- app_assoc; reflexivity.
Qed.

(** Both collecting loops make no call: they end with the names or panic. *)
Lemma collect_group_names_pure (ops : list Operation) (names : list string) :
  (exists all, collect_group_names ops names = Return all)
  \/ (exists why, collect_group_names ops names = Panic why).
Proof.
  revert names; induction ops as [ | op rest IH]; intros names; simpl.
  - left; eexists; reflexivity.
  - destruct op; simpl; auto; right; eexists; reflexivity.
Qed.

Lemma collect_package_names_pure (ops : list Operation) (names : list string) :
  (exists all, collect_package_names ops names = Return all)
  \/ (exists why, collect_package_names ops names = Panic why).
Proof.
  revert names; induction ops as [ | op rest IH]; intros names; simpl.
  - left; eexists; reflexivity.
  - destruct op; simpl; auto; right; eexists; reflexivity.
Qed.

(** C6. On the empty operation list the dispatcher returns
    [ErrNotEnoughOps], for every manager and every state of it, makes no
    call and leaves the manager as it was. *)
Theorem ApplyOperations_empty (m : M) :
  apply_on [] m = (Done (Some ErrNotEnoughOps), m, []).
Proof. reflexivity. Qed.

(** C5. When the first element is neither a RepoOp, a GroupOp nor a
    PackageOp, the dispatcher returns [ErrUnknownOperation] and calls no
    manager method, whatever follows the first element. *)
Theorem ApplyOperations_unknown (op0 : Operation) (rest : list Operation) (m : M) :
  kind_of op0 = OtherKind ->
  apply_on (op0 :: rest) m = (Done (Some ErrUnknownOperation), m, []).
Proof.
  destruct op0; simpl; intros Hkind; try discriminate Hkind.
  reflexivity.
Qed.

(** C3. On a non-empty list of GroupOps the dispatcher makes exactly one
    call, [InstallGroups], with the ignore-safety flag of the first element
    and the group names of all elements in list order, and returns what that
    call answered. *)
Theorem ApplyOperations_groups (group0 : OpGroup) (groups : list OpGroup) (m : M) :
  apply_on (map IsOpGroup (group0 :: groups)) m =
  let batch := CallInstallGroups (GroupIgnoreSafety group0)
                                 (map GroupName (group0 :: groups)) in
  let (err, m') := InstallGroups (GroupIgnoreSafety group0)
                                 (map GroupName (group0 :: groups)) m in
  (Done err, m', [Log (R := ManagerAnswer) batch err]).
Proof.
  unfold apply_on, ApplyOperations.
  change (map IsOpGroup (group0 :: groups))
    with (IsOpGroup group0 :: map IsOpGroup groups).
  cbn [assert_OpGroup deref_field bind].
  change (IsOpGroup group0 :: map IsOpGroup groups)
    with (map IsOpGroup (group0 :: groups)).
  rewrite collect_group_names_groups.
  cbn [bind call run manager_handle app].
  destruct (InstallGroups _ _ m) as [err m']; reflexivity.
Qed.

(** C4. On a non-empty list of PackageOps the dispatcher makes exactly one
    call, [InstallPackages], with the ignore-safety flag of the first element
    and the package names of all elements in list order, and returns what
    that call answered. *)
Theorem ApplyOperations_packages
  (package0 : OpPackage) (packages : list OpPackage) (m : M) :
  apply_on (map IsOpPackage (package0 :: packages)) m =
  let batch := CallInstallPackages (PackageIgnoreSafety package0)
                                   (map Name (package0 :: packages)) in
  let (err, m') := InstallPackages (PackageIgnoreSafety package0)
                                   (map Name (package0 :: packages)) m in
  (Done err, m', [Log (R := ManagerAnswer) batch err]).
Proof.
  unfold apply_on, ApplyOperations.
  change (map IsOpPackage (package0 :: packages))
    with (IsOpPackage package0 :: map IsOpPackage packages).
  cbn [assert_OpPackage deref_field bind].
  change (IsOpPackage package0 :: map IsOpPackage packages)
    with (map IsOpPackage (package0 :: packages)).
  rewrite collect_package_names_packages.
  cbn [bind call run manager_handle app].
  destruct (InstallPackages _ _ m) as [err m']; reflexivity.
Qed.

End Dispatcher.

Section RepoDispatch.
Context {M : Type} `{Manager M}.

(** The loop over RepoOps satisfies the RepoOp behaviour from every manager
    state; the empty list included. *)
Lemma add_repos_dispatch (repos : list OpRepo) (m : M) :
  repo_dispatch (map IsOpRepo repos)
                (run manager_handle (add_repos (map IsOpRepo repos)) m).
Proof.
  revert m; induction repos as [ | repo rest IH]; intros m.
  - unfold repo_dispatch; cbn.
    split; [reflexivity | split].
    + intros before l after e Hlog; destruct before; discriminate Hlog.
    + intros _; split; reflexivity.
  - cbn [map add_repos assert_OpRepo deref_field bind call run manager_handle].
    destruct (AddRepo (RepoName repo) (RepoURI repo) m) as [[e | ] m1].
    { (* the call failed: the loop returns its error *)
      cbn [run]; unfold repo_dispatch; cbn.
      split; [reflexivity | split].
      - intros before l after e' Hlog Hans.
        destruct before as [ | l0 before]; cbn in Hlog.
        + injection Hlog as <- <-. cbn in Hans.
          injection Hans as <-. split; reflexivity.
        + destruct before; discriminate Hlog.
      - intros Hnone.
        specialize (Hnone _ (or_introl eq_refl)); discriminate Hnone. }
    { (* the call succeeded: the loop goes on with the rest *)
      specialize (IH m1).
      destruct (run manager_handle (add_repos (map IsOpRepo rest)) m1)
        as [[o m2] tr] eqn:Hrun.
      destruct IH as (Hcalls & Hstop & Hall); cbn in Hcalls, Hstop, Hall.
      unfold repo_dispatch; cbn.
      split; [now rewrite Hcalls | split].
      - intros before l after e Hlog Hans.
        destruct before as [ | l0 before]; cbn in Hlog.
        + injection Hlog as <- <-. discriminate Hans.
        + injection Hlog as _ Hlog. exact (Hstop _ _ _ _ Hlog Hans).
      - intros Hnone.
        destruct Hall as [Hlen Hout].
        + intros l Hin; apply Hnone; right; exact Hin.
        + split; [now rewrite Hlen | exact Hout]. }
Qed.

(** C2, amended. On a non-empty list of RepoOps the dispatcher calls
    [AddRepo] for the elements in list order, once each, with each element's
    own name and URI; a call that answers an error ends the run, which
    returns that error, and no later element gets a call; when no call
    fails every element got its call and nil is returned. *)
Theorem ApplyOperations_repos (repo0 : OpRepo) (repos : list OpRepo) (m : M) :
  repo_dispatch (map IsOpRepo (repo0 :: repos))
                (apply_on (map IsOpRepo (repo0 :: repos)) m).
Proof.
  exact (add_repos_dispatch (repo0 :: repos) m).
Qed.

(** The loop over a list that starts as RepoOps but need not stay so makes
    only [AddRepo] calls. *)
Lemma add_repos_only_AddRepo (ops : list Operation) (m : M) :
  Forall (fun l => is_AddRepo (called l) = true)
         (log_of (run manager_handle (add_repos ops) m)).
Proof.
  revert m; induction ops as [ | op rest IH]; intros m.
  - constructor.
  - destruct op; cbn; try constructor.
    destruct (AddRepo (RepoName repo) (RepoURI repo) m) as [[e | ] m1].
    + cbn. repeat constructor.
    + specialize (IH m1).
      destruct (run manager_handle (add_repos rest) m1) as [[o m2] tr].
      cbn in *. constructor; [reflexivity | exact IH].
Qed.

(** C10. One run of the dispatcher calls manager methods of one kind only:
    any number of [AddRepo] calls, or at most one [InstallGroups] call, or at
    most one [InstallPackages] call.  This holds for every list, mixed ones
    included. *)
Theorem ApplyOperations_one_kind_of_call (ops : list Operation) (m : M) :
  let calls := map called (log_of (apply_on ops m)) in
  Forall (fun c => is_AddRepo c = true) calls
  \/ (Forall (fun c => is_InstallGroups c = true) calls /\ length calls <= 1)
  \/ (Forall (fun c => is_InstallPackages c = true) calls /\ length calls <= 1).
Proof.
  cbv zeta. unfold apply_on.
  destruct ops as [ | op0 rest].
  - left; constructor.
  - destruct op0 as [repo | group | package | other | | | ].
    + left. apply Forall_map.
      exact (add_repos_only_AddRepo (IsOpRepo repo :: rest) m).
    + right; left.
      cbn [ApplyOperations assert_OpGroup deref_field bind].
      destruct (collect_group_names_pure (IsOpGroup group :: rest) [])
        as [[names ->] | [why ->]]; cbn.
      * destruct (InstallGroups (GroupIgnoreSafety group) names m); cbn.
        split; [repeat constructor | lia].
      * split; [constructor | lia].
    + right; right.
      cbn [ApplyOperations assert_OpPackage deref_field bind].
      destruct (collect_package_names_pure (IsOpPackage package :: rest) [])
        as [[names ->] | [why ->]]; cbn.
      * destruct (InstallPackages (PackageIgnoreSafety package) names m); cbn.
        split; [repeat constructor | lia].
      * split; [constructor | lia].
    + left; constructor.
    + left; constructor.
    + right; left; split; [constructor | cbn; lia].
    + right; right; split; [constructor | cbn; lia].
Qed.

End RepoDispatch.

(** ** Homogeneous lists *)

Lemma all_repos (ops : list Operation) :
  forallb (fun op => OpKind_eqb (kind_of op) RepoKind) ops = true ->
  forallb non_nil ops = true ->
  exists repos, ops = map IsOpRepo repos.
Proof.
  induction ops as [ | op rest IH]; cbn [forallb]; intros Hkind Hnon_nil.
  - exists []; reflexivity.
  - apply andb_prop in Hkind as [Hop Hkind].
    apply andb_prop in Hnon_nil as [Hptr Hnon_nil].
    destruct (IH Hkind Hnon_nil) as [repos ->].
    destruct op as [repo | | | | | | ];
      try discriminate Hop; try discriminate Hptr.
    exists (repo :: repos); reflexivity.
Qed.

Lemma all_groups (ops : list Operation) :
  forallb (fun op => OpKind_eqb (kind_of op) GroupKind) ops = true ->
  forallb non_nil ops = true ->
  exists groups, ops = map IsOpGroup groups.
Proof.
  induction ops as [ | op rest IH]; cbn [forallb]; intros Hkind Hnon_nil.
  - exists []; reflexivity.
  - apply andb_prop in Hkind as [Hop Hkind].
    apply andb_prop in Hnon_nil as [Hptr Hnon_nil].
    destruct (IH Hkind Hnon_nil) as [groups ->].
    destruct op as [ | group | | | | | ];
      try discriminate Hop; try discriminate Hptr.
    exists (group :: groups); reflexivity.
Qed.

Lemma all_packages (ops : list Operation) :
  forallb (fun op => OpKind_eqb (kind_of op) PackageKind) ops = true ->
  forallb non_nil ops = true ->
  exists packages, ops = map IsOpPackage packages.
Proof.
  induction ops as [ | op rest IH]; cbn [forallb]; intros Hkind Hnon_nil.
  - exists []; reflexivity.
  - apply andb_prop in Hkind as [Hop Hkind].
    apply andb_prop in Hnon_nil as [Hptr Hnon_nil].
    destruct (IH Hkind Hnon_nil) as [packages ->].
    destruct op as [ | | package | | | | ];
      try discriminate Hop; try discriminate Hptr.
    exists (package :: packages); reflexivity.
Qed.

(** On elements of the right dynamic type the loops can only panic on a
    nil pointer. *)
Lemma add_repos_assertion_safe (ops : list Operation) :
  forallb (fun op => OpKind_eqb (kind_of op) RepoKind) ops = true ->
  assertion_safe (add_repos ops).
Proof.
  induction ops as [ | op rest IH]; cbn [forallb]; intros Hkind.
  - exact I.
  - apply andb_prop in Hkind as [Hop Hkind].
    destruct op as [repo | | | | | | ]; try discriminate Hop.
    + cbn. intros [e | ]; [exact I | exact (IH Hkind)].
    + exact I.
Qed.

Lemma collect_group_names_assertion_safe
  (ops : list Operation) (names : list string) :
  forallb (fun op => OpKind_eqb (kind_of op) GroupKind) ops = true ->
  (exists all, collect_group_names ops names = Return all)
  \/ collect_group_names ops names = Panic NilDereference.
Proof.
  revert names; induction ops as [ | op rest IH]; cbn [forallb];
    intros names Hkind.
  - left; eexists; reflexivity.
  - apply andb_prop in Hkind as [Hop Hkind].
    destruct op as [ | group | | | | | ]; try discriminate Hop.
    + cbn. exact (IH _ Hkind).
    + right; reflexivity.
Qed.

Lemma collect_package_names_assertion_safe
  (ops : list Operation) (names : list string) :
  forallb (fun op => OpKind_eqb (kind_of op) PackageKind) ops = true ->
  (exists all, collect_package_names ops names = Return all)
  \/ collect_package_names ops names = Panic NilDereference.
Proof.
  revert names; induction ops as [ | op rest IH]; cbn [forallb];
    intros names Hkind.
  - left; eexists; reflexivity.
  - apply andb_prop in Hkind as [Hop Hkind].
    destruct op as [ | | package | | | | ]; try discriminate Hop.
    + cbn. exact (IH _ Hkind).
    + right; reflexivity.
Qed.

Lemma ApplyOperations_assertion_safe (ops : list Operation) :
  homogeneous ops = true -> assertion_safe (ApplyOperations ops).
Proof.
  destruct ops as [ | op0 rest]; [intros _; exact I | ].
  destruct op0 as [repo | group | package | other | | | ];
    cbn [homogeneous kind_of]; intros Hhom.
  - exact (add_repos_assertion_safe _ Hhom).
  - cbn [ApplyOperations assert_OpGroup deref_field bind].
    destruct (collect_group_names_assertion_safe _ [] Hhom)
      as [[names ->] | ->]; cbn; [intros r | ]; exact I.
  - cbn [ApplyOperations assert_OpPackage deref_field bind].
    destruct (collect_package_names_assertion_safe _ [] Hhom)
      as [[names ->] | ->]; cbn; [intros r | ]; exact I.
  - exact I.
  - exact (add_repos_assertion_safe _ Hhom).
  - exact I.
  - exact I.
Qed.

Lemma add_repos_panic_free (repos : list OpRepo) :
  panic_free (add_repos (map IsOpRepo repos)).
Proof.
  induction repos as [ | repo rest IH]; simpl.
  - exact I.
  - intros [e | ]; [exact I | exact IH].
Qed.

Lemma ApplyOperations_panic_free (ops : list Operation) :
  homogeneous ops = true ->
  forallb non_nil ops = true ->
  panic_free (ApplyOperations ops).
Proof.
  destruct ops as [ | op0 rest]; [intros _ _; exact I | ].
  destruct op0 as [repo | group | package | other | | | ];
    cbn [homogeneous kind_of]; intros Hhom Hnon_nil;
    try discriminate Hnon_nil.
  - destruct (all_repos _ Hhom Hnon_nil) as [repos ->].
    destruct repos as [ | repo0 repos]; [exact I | ].
    exact (add_repos_panic_free (repo0 :: repos)).
  - destruct (all_groups _ Hhom Hnon_nil) as [groups Heq].
    cbn [ApplyOperations assert_OpGroup deref_field bind].
    rewrite Heq, collect_group_names_groups; simpl.
    intros r; exact I.
  - destruct (all_packages _ Hhom Hnon_nil) as [packages Heq].
    cbn [ApplyOperations assert_OpPackage deref_field bind].
    rewrite Heq, collect_package_names_packages; simpl.
    intros r; exact I.
  - exact I.
Qed.

(** C9, amended. On a non-empty list whose elements all have the kind of
    the first one, no type assertion of the dispatcher can fail: the
    cast-failure panic is unreachable.  When moreover no element is a nil
    pointer the tree has no panic node at all, so against every manager the
    run ends by returning (nil or an error). *)
Theorem ApplyOperations_total_on_homogeneous (ops : list Operation) :
  ops <> [] ->
  homogeneous ops = true ->
  assertion_safe (ApplyOperations ops)
  /\ (forallb non_nil ops = true ->
      panic_free (ApplyOperations ops)
      /\ forall (M : Type) (mgr : Manager M) (m : M),
           exists err, outcome_of (apply_on ops m) = Done err).
Proof.
  intros _ Hhom.
  split; [exact (ApplyOperations_assertion_safe ops Hhom) | ].
  intros Hnon_nil.
  pose proof (ApplyOperations_panic_free ops Hhom Hnon_nil) as Hfree.
  split; [exact Hfree | ].
  intros M mgr m.
  exact (panic_free_runs manager_handle (ApplyOperations ops) Hfree m).
Qed.

(** ** The spec loader *)

Section LoaderFacts.
Context {W : Type} `{Collaborators W}.
Variable Dir : string -> string.
Variable Join : string -> string -> string.

(** C7. A path that does not end in [.spin] is refused with the error
    [Not a .spin file: <path>]; no collaborator is called (the configuration
    parser, the path resolver and the package-list parser stay untouched)
    and the world is left as it was. *)
Theorem NewImageSpec_rejects_other_suffix (spinFile : string) (w : W) :
  HasSuffix spinFile ".spin" = false ->
  load_on Dir Join spinFile w
  = (Done (Err (Errorf ("Not a .spin file: " ++ spinFile))), w, []).
Proof.
  intros Hsuffix.
  unfold load_on, NewImageSpec.
  rewrite Hsuffix; reflexivity.
Qed.

(** C8. Whichever collaborator fails first (the configuration parser, the
    resolution of the base directory, or the package-list parser), the
    loader returns exactly the error value that collaborator answered, and
    no ImageSpec. *)
Theorem NewImageSpec_propagates_errors (spinFile : string) (w : W) :
  HasSuffix spinFile ".spin" = true ->
  (forall e w1,
      config_New spinFile w = (Err e, w1) ->
      outcome_of (load_on Dir Join spinFile w) = Done (Err e))
  /\ (forall conf w1 e w2,
      config_New spinFile w = (Ok conf, w1) ->
      filepath_Abs (Dir spinFile) w1 = (Err e, w2) ->
      outcome_of (load_on Dir Join spinFile w) = Done (Err e))
  /\ (forall conf w1 dir w2 e w3,
      config_New spinFile w = (Ok conf, w1) ->
      filepath_Abs (Dir spinFile) w1 = (Ok dir, w2) ->
      parser_Parse (Join dir (Packages (Image conf))) w2 = (Err e, w3) ->
      outcome_of (load_on Dir Join spinFile w) = Done (Err e)).
Proof.
  intros Hsuffix.
  unfold load_on, NewImageSpec; rewrite Hsuffix.
  cbn [negb bind call run loader_handle].
  repeat split.
  - intros e w1 Hconf; rewrite Hconf; reflexivity.
  - intros conf w1 e w2 Hconf Habs.
    rewrite Hconf; cbn [bind run loader_handle].
    rewrite Habs; reflexivity.
  - intros conf w1 dir w2 e w3 Hconf Habs Hparse.
    rewrite Hconf; cbn [bind run loader_handle].
    rewrite Habs; cbn [bind run loader_handle set_BaseDir BaseDir].
    rewrite Hparse; reflexivity.
Qed.

(** What a successful load is made of: the three collaborators answered in
    turn, the package-list parser was handed the join of the resolved
    directory with the configured filename, and the returned struct carries
    the stack and the configuration, with [BaseDir] left at its zero value. *)
Lemma NewImageSpec_success (spinFile : string) (w : W) (loaded : ImageSpec) :
  outcome_of (load_on Dir Join spinFile w) = Done (Ok loaded) ->
  exists conf dir stack w1 w2 w3,
    HasSuffix spinFile ".spin" = true
    /\ config_New spinFile w = (Ok conf, w1)
    /\ filepath_Abs (Dir spinFile) w1 = (Ok dir, w2)
    /\ parser_Parse (Join dir (Packages (Image conf))) w2 = (Ok stack, w3)
    /\ parsed_path (log_of (load_on Dir Join spinFile w))
       = Some (Join dir (Packages (Image conf)))
    /\ loaded = {| Stack := Some stack; Config := Some conf; BaseDir := "" |}.
Proof.
  unfold load_on, NewImageSpec.
  destruct (HasSuffix spinFile ".spin") eqn:Hsuffix;
    cbn [negb bind call run loader_handle]; [ | discriminate].
  destruct (config_New spinFile w) as [[conf | e] w1] eqn:Hconf;
    cbn [bind run loader_handle]; [ | discriminate].
  destruct (filepath_Abs (Dir spinFile) w1) as [[dir | e] w2] eqn:Habs;
    cbn [bind run loader_handle set_BaseDir BaseDir]; [ | discriminate].
  destruct (parser_Parse (Join dir (Packages (Image conf))) w2)
    as [[stack | e] w3] eqn:Hparse; cbn; [ | discriminate].
  intros [= <-].
  exists conf, dir, stack, w1, w2, w3; repeat split; assumption.
Qed.

(** The base directory of a loaded spec is always the empty string. *)
Lemma NewImageSpec_BaseDir_zero (spinFile : string) (w : W) (loaded : ImageSpec) :
  outcome_of (load_on Dir Join spinFile w) = Done (Ok loaded) ->
  BaseDir loaded = "".
Proof.
  intros Hload.
  destruct (NewImageSpec_success _ _ _ Hload)
    as (conf & dir & stack & w1 & w2 & w3 & _ & _ & _ & _ & _ & ->).
  reflexivity.
Qed.

End LoaderFacts.

(** ** The functions at work on concrete inputs *)

Import Fake.

(** Two RepoOps against a manager that accepts everything: two calls, in
    list order. *)
Example apply_two_repos :
  apply_on [IsOpRepo repo_a; IsOpRepo repo_b] always_nil
  = (Done None, always_nil,
     [Log (R := ManagerAnswer) (CallAddRepo "a" "u1") None;
      Log (R := ManagerAnswer) (CallAddRepo "b" "u2") None]).
Proof. reflexivity. Qed.

(** When the first [AddRepo] fails the second is never attempted. *)
Example apply_two_repos_first_fails :
  apply_on [IsOpRepo repo_a; IsOpRepo repo_b] failing_first
  = (Done (Some (CollaboratorError "repository unreachable")), always_nil,
     [Log (R := ManagerAnswer) (CallAddRepo "a" "u1")
          (Some (CollaboratorError "repository unreachable"))]).
Proof. reflexivity. Qed.

Example apply_two_groups :
  apply_on [IsOpGroup group_g1; IsOpGroup group_g2] always_nil
  = (Done None, always_nil,
     [Log (R := ManagerAnswer) (CallInstallGroups true ["g1"; "g2"]) None]).
Proof. reflexivity. Qed.

Example apply_two_packages :
  apply_on [IsOpPackage package_p1; IsOpPackage package_p2] always_nil
  = (Done None, always_nil,
     [Log (R := ManagerAnswer) (CallInstallPackages false ["p1"; "p2"]) None]).
Proof. reflexivity. Qed.

(** A GroupOp list with a stray PackageOp panics before any call is made. *)
Example apply_group_then_package_panics :
  apply_on [IsOpGroup group_g1; IsOpPackage package_p1] always_nil
  = (Panicked, always_nil, []).
Proof. reflexivity. Qed.

(** C2 as first stated, for every list that merely starts with a RepoOp,
    fails on [repo_then_group]: the manager accepts the first repository,
    the type assertion on the second element panics, and so one call was
    made for two elements and nothing is returned. *)
Lemma ApplyOperations_repos_needs_all_repos :
  kind_of (hd (OtherOperation "") repo_then_group) = RepoKind
  /\ apply_on repo_then_group always_nil
     = (Panicked, always_nil,
        [Log (R := ManagerAnswer) (CallAddRepo "a" "u1") None])
  /\ ~ repo_dispatch repo_then_group (apply_on repo_then_group always_nil).
Proof.
  split; [reflexivity | split; [reflexivity | ]].
  intros (_ & _ & Hall).
  destruct Hall as [Hlen _].
  - intros l [<- | []]; reflexivity.
  - discriminate Hlen.
Qed.

(** An operation of a foreign dynamic type in front of a RepoOp: the manager,
    which would fail any call, is never asked. *)
Lemma ApplyOperations_unknown_witness :
  kind_of (OtherOperation "*spec.OpUser") = OtherKind
  /\ apply_on [OtherOperation "*spec.OpUser"; IsOpRepo repo_a] failing_first
     = (Done (Some ErrUnknownOperation), failing_first, []).
Proof.
  split; [reflexivity | ].
  apply ApplyOperations_unknown; reflexivity.
Defined.

(** Two GroupOps run to a result even against a failing manager. *)
Lemma ApplyOperations_total_on_homogeneous_witness :
  [IsOpGroup group_g1; IsOpGroup group_g2] <> []
  /\ homogeneous [IsOpGroup group_g1; IsOpGroup group_g2] = true
  /\ forallb non_nil [IsOpGroup group_g1; IsOpGroup group_g2] = true
  /\ assertion_safe (ApplyOperations [IsOpGroup group_g1; IsOpGroup group_g2])
  /\ panic_free (ApplyOperations [IsOpGroup group_g1; IsOpGroup group_g2])
  /\ exists err,
       outcome_of (apply_on [IsOpGroup group_g1; IsOpGroup group_g2] failing_first)
       = Done err.
Proof.
  assert (Hne : [IsOpGroup group_g1; IsOpGroup group_g2] <> []) by discriminate.
  assert (Hhom : homogeneous [IsOpGroup group_g1; IsOpGroup group_g2] = true)
    by reflexivity.
  assert (Hnon_nil : forallb non_nil [IsOpGroup group_g1; IsOpGroup group_g2] = true)
    by reflexivity.
  destruct (ApplyOperations_total_on_homogeneous _ Hne Hhom) as [Hsafe Htotal].
  destruct (Htotal Hnon_nil) as [Hfree Hruns].
  split; [exact Hne | split; [exact Hhom | split; [exact Hnon_nil | ]]].
  split; [exact Hsafe | split; [exact Hfree | ]].
  exact (Hruns Scripted Scripted_Manager failing_first).
Defined.

(** C9 as first stated, for every non-empty homogeneous list, fails on the
    list made of one nil [*spec.OpGroup]: the type switch and the type
    assertion accept it, and reading [IgnoreSafety] through it panics, so
    the dispatcher does not return. *)
Lemma ApplyOperations_nil_pointer_panics :
  [NilOpGroup] <> []
  /\ homogeneous [NilOpGroup] = true
  /\ apply_on [NilOpGroup] always_nil = (Panicked, always_nil, [])
  /\ ~ panic_free (ApplyOperations [NilOpGroup])
  /\ ~ (forall (M : Type) (mgr : Manager M) (m : M),
          exists err, outcome_of (apply_on [NilOpGroup] m) = Done err).
Proof.
  split; [discriminate | split; [reflexivity | split; [reflexivity | split]]].
  - intros Hfree; exact Hfree.
  - intros Htotal.
    destruct (Htotal Scripted Scripted_Manager always_nil) as [err Herr].
    discriminate Herr.
Qed.

(** A path one letter short of the suffix. *)
Lemma NewImageSpec_rejects_other_suffix_witness :
  HasSuffix "/srv/images/solus.spi" ".spin" = false
  /\ load_on Fake.Dir Fake.Join "/srv/images/solus.spi" solus_files
     = (Done (Err (Errorf "Not a .spin file: /srv/images/solus.spi")),
        solus_files, []).
Proof.
  split; [reflexivity | ].
  apply (NewImageSpec_rejects_other_suffix Fake.Dir Fake.Join); reflexivity.
Defined.

(** One load per failing collaborator: a missing spec file, an unknown
    working directory, a missing package list. *)
Lemma NewImageSpec_propagates_errors_witness :
  outcome_of (load_on Fake.Dir Fake.Join "/srv/images/other.spin" solus_files)
  = Done (Err (CollaboratorError
                 "open /srv/images/other.spin: no such file or directory"))
  /\ outcome_of (load_on Fake.Dir Fake.Join "solus.spin" no_cwd_files)
     = Done (Err (CollaboratorError "getwd: no such file or directory"))
  /\ outcome_of (load_on Fake.Dir Fake.Join "/srv/images/solus.spin" no_packages_files)
     = Done (Err (CollaboratorError
                    "open /srv/images/packages: no such file or directory")).
Proof.
  split; [ | split].
  - apply (proj1 (NewImageSpec_propagates_errors
                    Fake.Dir Fake.Join "/srv/images/other.spin" solus_files eq_refl)
             _ solus_files).
    reflexivity.
  - apply (proj1 (proj2 (NewImageSpec_propagates_errors
                    Fake.Dir Fake.Join "solus.spin" no_cwd_files eq_refl))
             solus_conf no_cwd_files _ no_cwd_files); reflexivity.
  - apply (proj2 (proj2 (NewImageSpec_propagates_errors
                    Fake.Dir Fake.Join "/srv/images/solus.spin" no_packages_files
                    eq_refl))
             solus_conf no_packages_files "/srv/images" no_packages_files
             _ no_packages_files); reflexivity.
Defined.

(** C1, on the code. Loading [/srv/images/solus.spin] succeeds; the
    directory was resolved to [/srv/images] and the package-list parser was
    handed [/srv/images/packages]; yet the returned ImageSpec has an empty
    [BaseDir], and joining it with the configured filename gives
    [packages], not the path the loader used. *)
Theorem NewImageSpec_returns_empty_BaseDir :
  let x := load_on Fake.Dir Fake.Join "/srv/images/solus.spin" solus_files in
  exists loaded conf,
    outcome_of x = Done (Ok loaded)
    /\ Config loaded = Some conf
    /\ filepath_Abs (Fake.Dir "/srv/images/solus.spin") solus_files
       = (Ok "/srv/images", solus_files)
    /\ parsed_path (log_of x) = Some "/srv/images/packages"
    /\ BaseDir loaded = ""
    /\ Fake.Join (BaseDir loaded) (Packages (Image conf)) = "packages"
    /\ Some (Fake.Join (BaseDir loaded) (Packages (Image conf)))
       <> parsed_path (log_of x).
Proof.
  cbv zeta.
  exists {| Stack := Some solus_stack; Config := Some solus_conf; BaseDir := "" |},
         solus_conf.
  repeat split; discriminate.
Qed.

(** ** Further behaviour of the dispatcher *)

Section DispatcherMore.
Context {M : Type} `{Manager M}.

Lemma collect_group_names_stray (ops : list Operation) (names : list string) :
  forallb (fun op => OpKind_eqb (kind_of op) GroupKind) ops = false ->
  exists why, collect_group_names ops names = Panic why.
Proof.
  revert names; induction ops as [ | op rest IH]; intros names Hstray.
  - discriminate Hstray.
  - destruct op as [ | group | | | | | ]; try (eexists; reflexivity).
    cbn in Hstray |- *. exact (IH _ Hstray).
Qed.

Lemma collect_package_names_stray (ops : list Operation) (names : list string) :
  forallb (fun op => OpKind_eqb (kind_of op) PackageKind) ops = false ->
  exists why, collect_package_names ops names = Panic why.
Proof.
  revert names; induction ops as [ | op rest IH]; intros names Hstray.
  - discriminate Hstray.
  - destruct op as [ | | package | | | | ]; try (eexists; reflexivity).
    cbn in Hstray |- *. exact (IH _ Hstray).
Qed.

(** The RepoOp loop over [front ++ back]: the loop over [front], and when
    that one returned nil the loop over [back] from the state it left. *)
Lemma add_repos_app (front back : list Operation) (m : M) :
  run manager_handle (add_repos (front ++ back)) m =
  match run manager_handle (add_repos front) m with
  | (Done None, m1, tr1) =>
      let '(o, m2, tr2) := run manager_handle (add_repos back) m1 in
      (o, m2, tr1 ++ tr2)
  | stopped => stopped
  end.
Proof.
  revert m; induction front as [ | op front IH]; intros m.
  - cbn. destruct (run manager_handle (add_repos back) m) as [[o m2] tr2].
    reflexivity.
  - destruct op as [repo | | | | | | ]; try reflexivity.
    cbn [app add_repos assert_OpRepo deref_field bind call run manager_handle].
    destruct (AddRepo (RepoName repo) (RepoURI repo) m) as [[e | ] m1].
    + reflexivity.
    + rewrite IH.
      destruct (run manager_handle (add_repos front) m1) as [[[[e | ] | ] m2] tr1];
        try reflexivity.
      destruct (run manager_handle (add_repos back) m2) as [[o m3] tr2].
      reflexivity.
Qed.

(** Applying two RepoOp-led lists in one call is applying the first and, if
    that returned nil, the second to the manager as the first left it: the
    calls of both, in order; if the first stops (an error or a panic) the
    second list is not touched. *)
Theorem ApplyOperations_repos_in_sequence
  (repo1 repo2 : OpRepo) (ops1 ops2 : list Operation) (m : M) :
  apply_on ((IsOpRepo repo1 :: ops1) ++ (IsOpRepo repo2 :: ops2)) m =
  match apply_on (IsOpRepo repo1 :: ops1) m with
  | (Done None, m1, tr1) =>
      let '(o, m2, tr2) := apply_on (IsOpRepo repo2 :: ops2) m1 in
      (o, m2, tr1 ++ tr2)
  | stopped => stopped
  end.
Proof.
  exact (add_repos_app (IsOpRepo repo1 :: ops1) (IsOpRepo repo2 :: ops2) m).
Qed.

(** RepoOps followed by an element of another kind: the repositories are
    added one by one as if they were alone; if all of them were accepted the
    dispatcher then panics on the stray element, and the repositories stay
    added; if one was refused its error is returned as usual. *)
Theorem ApplyOperations_stray_after_repos
  (repo0 : OpRepo) (repos : list OpRepo) (stray : Operation)
  (rest : list Operation) (m : M) :
  kind_of stray <> RepoKind ->
  apply_on (map IsOpRepo (repo0 :: repos) ++ stray :: rest) m =
  match apply_on (map IsOpRepo (repo0 :: repos)) m with
  | (Done None, m1, tr1) => (Panicked, m1, tr1)
  | stopped => stopped
  end.
Proof.
  intros Hstray.
  unfold apply_on.
  change (ApplyOperations (map IsOpRepo (repo0 :: repos) ++ stray :: rest))
    with (add_repos (map IsOpRepo (repo0 :: repos) ++ stray :: rest)).
  change (ApplyOperations (map IsOpRepo (repo0 :: repos)))
    with (add_repos (map IsOpRepo (repo0 :: repos))).
  rewrite add_repos_app.
  destruct (run manager_handle (add_repos (map IsOpRepo (repo0 :: repos))) m)
    as [[[[e | ] | ] m1] tr1]; try reflexivity.
  destruct stray as [repo | | | | | | ];
    try (now contradiction Hstray);
    cbn; rewrite app_nil_r; reflexivity.
Qed.

End DispatcherMore.

Section DispatcherResults.
Context {M : Type} `{Manager M}.

(** When the RepoOp loop returns nil, every element was a RepoOp, each got
    its call in order, and every call answered nil. *)
Lemma add_repos_nil (ops : list Operation) (m : M) :
  outcome_of (run manager_handle (add_repos ops) m) = Done None ->
  exists repos,
    ops = map IsOpRepo repos
    /\ map called (log_of (run manager_handle (add_repos ops) m))
       = map (fun repo => CallAddRepo (RepoName repo) (RepoURI repo)) repos
    /\ Forall (fun l => answered l = None)
              (log_of (run manager_handle (add_repos ops) m)).
Proof.
  revert m; induction ops as [ | op rest IH]; intros m.
  - intros _; exists []; repeat split; constructor.
  - destruct op as [repo | | | | | | ]; try discriminate.
    cbn [add_repos assert_OpRepo deref_field bind call run manager_handle].
    destruct (AddRepo (RepoName repo) (RepoURI repo) m) as [[e | ] m1];
      [discriminate | ].
    specialize (IH m1).
    destruct (run manager_handle (add_repos rest) m1) as [[o m2] tr].
    cbn in IH |- *. intros Hnil.
    destruct (IH Hnil) as (repos & -> & Hcalls & Hanswers).
    exists (repo :: repos); cbn.
    split; [reflexivity | split].
    + now rewrite Hcalls.
    + constructor; [reflexivity | exact Hanswers].
Qed.

Lemma collect_group_names_returned
  (ops : list Operation) (names all : list string) :
  collect_group_names ops names = Return all ->
  exists groups, ops = map IsOpGroup groups
                 /\ all = names ++ map GroupName groups.
Proof.
  revert names; induction ops as [ | op rest IH]; intros names.
  - intros [= <-]. exists []; split; [reflexivity | now rewrite app_nil_r].
  - destruct op as [ | group | | | | | ]; try discriminate.
    cbn. intros Hrest.
    destruct (IH _ Hrest) as (groups & -> & ->).
    exists (group :: groups); split; [reflexivity | ].
    now rewrite <- app_assoc.
Qed.

Lemma collect_package_names_returned
  (ops : list Operation) (names all : list string) :
  collect_package_names ops names = Return all ->
  exists packages, ops = map IsOpPackage packages
                   /\ all = names ++ map Name packages.
Proof.
  revert names; induction ops as [ | op rest IH]; intros names.
  - intros [= <-]. exists []; split; [reflexivity | now rewrite app_nil_r].
  - destruct op as [ | | package | | | | ]; try discriminate.
    cbn. intros Hrest.
    destruct (IH _ Hrest) as (packages & -> & ->).
    exists (package :: packages); split; [reflexivity | ].
    now rewrite <- app_assoc.
Qed.

(** A nil return means the whole list reached the manager: the list was
    made of RepoOps only, of GroupOps only or of PackageOps only; in the
    first case every repository got its [AddRepo] call, in the other two the
    single batch call named every element; and every call answered nil. *)
Theorem ApplyOperations_nil_means_all_applied (ops : list Operation) (m : M) :
  outcome_of (apply_on ops m) = Done None ->
  Forall (fun l => answered l = None) (log_of (apply_on ops m))
  /\ ((exists repo0 repos,
         ops = map IsOpRepo (repo0 :: repos)
         /\ map called (log_of (apply_on ops m))
            = map (fun repo => CallAddRepo (RepoName repo) (RepoURI repo))
                  (repo0 :: repos))
      \/ (exists group0 groups,
         ops = map IsOpGroup (group0 :: groups)
         /\ map called (log_of (apply_on ops m))
            = [CallInstallGroups (GroupIgnoreSafety group0)
                                 (map GroupName (group0 :: groups))])
      \/ (exists package0 packages,
         ops = map IsOpPackage (package0 :: packages)
         /\ map called (log_of (apply_on ops m))
            = [CallInstallPackages (PackageIgnoreSafety package0)
                                   (map Name (package0 :: packages))])).
Proof.
  unfold apply_on.
  destruct ops as [ | [repo | group | package | other | | | ] rest];
    try discriminate.
  - intros Hnil.
    destruct (add_repos_nil (IsOpRepo repo :: rest) m Hnil)
      as (repos & Hops & Hcalls & Hanswers).
    split; [exact Hanswers | left].
    destruct repos as [ | repo0 repos]; [discriminate Hops | ].
    exists repo0, repos; split; [exact Hops | exact Hcalls].
  - cbn [ApplyOperations assert_OpGroup deref_field bind].
    destruct (collect_group_names_pure (IsOpGroup group :: rest) [])
      as [[names Hnames] | [why Hpanic]].
    + destruct (collect_group_names_returned _ _ _ Hnames)
        as (groups & Hops & ->).
      rewrite Hnames; cbn [bind call run manager_handle app].
      destruct (InstallGroups (GroupIgnoreSafety group) (map GroupName groups) m)
        as [[e | ] m1] eqn:Hcall; cbn; [discriminate | intros _].
      split; [repeat constructor | right; left].
      destruct groups as [ | group0 groups]; [discriminate Hops | ].
      injection Hops as -> ->.
      exists group0, groups; split; reflexivity.
    + rewrite Hpanic; discriminate.
  - cbn [ApplyOperations assert_OpPackage deref_field bind].
    destruct (collect_package_names_pure (IsOpPackage package :: rest) [])
      as [[names Hnames] | [why Hpanic]].
    + destruct (collect_package_names_returned _ _ _ Hnames)
        as (packages & Hops & ->).
      rewrite Hnames; cbn [bind call run manager_handle app].
      destruct (InstallPackages (PackageIgnoreSafety package)
                                (map Name packages) m)
        as [[e | ] m1]; cbn; [discriminate | intros _].
      split; [repeat constructor | right; right].
      destruct packages as [ | package0 packages]; [discriminate Hops | ].
      injection Hops as -> ->.
      exists package0, packages; split; reflexivity.
    + rewrite Hpanic; discriminate.
Qed.

End DispatcherResults.

Section DispatcherErrors.
Context {M : Type} `{Manager M}.

(** The two batching cases panic on any list with a stray element, before
    the manager is called: the log is empty and the manager keeps its
    state. *)
Theorem ApplyOperations_stray_in_batch
  (op0 : Operation) (rest : list Operation) (m : M) :
  kind_of op0 = GroupKind \/ kind_of op0 = PackageKind ->
  homogeneous (op0 :: rest) = false ->
  apply_on (op0 :: rest) m = (Panicked, m, []).
Proof.
  intros Hkind Hstray.
  destruct op0 as [repo | group | package | other | | | ];
    try (destruct Hkind as [Hkind | Hkind]; discriminate Hkind).
  - unfold apply_on; cbn [ApplyOperations assert_OpGroup deref_field bind].
    destruct (collect_group_names_stray (IsOpGroup group :: rest) [] Hstray)
      as [why ->].
    reflexivity.
  - unfold apply_on; cbn [ApplyOperations assert_OpPackage deref_field bind].
    destruct (collect_package_names_stray (IsOpPackage package :: rest) [] Hstray)
      as [why ->].
    reflexivity.
  - reflexivity.
  - reflexivity.
Qed.

Lemma add_repos_error (ops : list Operation) (m : M) (e : error) :
  outcome_of (run manager_handle (add_repos ops) m) = Done (Some e) ->
  exists before l,
    log_of (run manager_handle (add_repos ops) m) = before ++ [l]
    /\ answered l = Some e.
Proof.
  revert m; induction ops as [ | op rest IH]; intros m.
  - discriminate.
  - destruct op as [repo | | | | | | ]; try discriminate.
    cbn [add_repos assert_OpRepo deref_field bind call run manager_handle].
    destruct (AddRepo (RepoName repo) (RepoURI repo) m) as [[e' | ] m1].
    + cbn. intros [= ->].
      exists [], (Log (R := ManagerAnswer)
                      (CallAddRepo (RepoName repo) (RepoURI repo)) (Some e)).
      split; reflexivity.
    + specialize (IH m1).
      destruct (run manager_handle (add_repos rest) m1) as [[o m2] tr].
      cbn in IH |- *. intros Herr.
      destruct (IH Herr) as (before & l & -> & Hanswer).
      exists (Log (R := ManagerAnswer)
                  (CallAddRepo (RepoName repo) (RepoURI repo)) None :: before), l.
      split; [reflexivity | exact Hanswer].
Qed.

(** Where a returned error comes from: [ErrNotEnoughOps] for the empty
    list, [ErrUnknownOperation] for a first element of an unknown kind, and
    otherwise the answer of the last manager call made.  The dispatcher
    invents no other error and hides none. *)
Theorem ApplyOperations_error_origin (ops : list Operation) (m : M) (e : error) :
  outcome_of (apply_on ops m) = Done (Some e) ->
  (ops = [] /\ e = ErrNotEnoughOps)
  \/ (exists other rest,
        ops = other :: rest /\ kind_of other = OtherKind
        /\ e = ErrUnknownOperation)
  \/ (exists before l,
        log_of (apply_on ops m) = before ++ [l] /\ answered l = Some e).
Proof.
  unfold apply_on.
  destruct ops as [ | [repo | group | package | other | | | ] rest].
  - intros [= <-]; left; split; reflexivity.
  - intros Herr; right; right.
    exact (add_repos_error (IsOpRepo repo :: rest) m e Herr).
  - cbn [ApplyOperations assert_OpGroup deref_field bind].
    destruct (collect_group_names_pure (IsOpGroup group :: rest) [])
      as [[names ->] | [why ->]]; [ | discriminate].
    cbn [bind call run manager_handle].
    destruct (InstallGroups (GroupIgnoreSafety group) names m) as [err m1].
    cbn. intros [= ->]; right; right.
    exists [], (Log (R := ManagerAnswer)
                    (CallInstallGroups (GroupIgnoreSafety group) names) (Some e)).
    split; reflexivity.
  - cbn [ApplyOperations assert_OpPackage deref_field bind].
    destruct (collect_package_names_pure (IsOpPackage package :: rest) [])
      as [[names ->] | [why ->]]; [ | discriminate].
    cbn [bind call run manager_handle].
    destruct (InstallPackages (PackageIgnoreSafety package) names m) as [err m1].
    cbn. intros [= ->]; right; right.
    exists [], (Log (R := ManagerAnswer)
                    (CallInstallPackages (PackageIgnoreSafety package) names)
                    (Some e)).
    split; reflexivity.
  - intros [= <-]; right; left.
    exists (OtherOperation other), rest; repeat split.
  - discriminate.
  - discriminate.
  - discriminate.
Qed.

Lemma add_repos_call_count (ops : list Operation) (m : M) :
  length (log_of (run manager_handle (add_repos ops) m)) <= length ops.
Proof.
  revert m; induction ops as [ | op rest IH]; intros m.
  - cbn; lia.
  - destruct op as [repo | | | | | | ]; try (cbn; lia).
    cbn [add_repos assert_OpRepo deref_field bind call run manager_handle].
    destruct (AddRepo (RepoName repo) (RepoURI repo) m) as [[e | ] m1].
    + cbn; lia.
    + specialize (IH m1).
      destruct (run manager_handle (add_repos rest) m1) as [[o m2] tr].
      cbn in IH |- *; lia.
Qed.

(** The dispatcher never makes more manager calls than the list has
    elements, whatever the list and whatever the manager answers. *)
Theorem ApplyOperations_call_count (ops : list Operation) (m : M) :
  length (log_of (apply_on ops m)) <= length ops.
Proof.
  unfold apply_on.
  destruct ops as [ | [repo | group | package | other | | | ] rest].
  - cbn; lia.
  - exact (add_repos_call_count (IsOpRepo repo :: rest) m).
  - cbn [ApplyOperations assert_OpGroup deref_field bind].
    destruct (collect_group_names_pure (IsOpGroup group :: rest) [])
      as [[names ->] | [why ->]]; cbn; [ | lia].
    destruct (InstallGroups (GroupIgnoreSafety group) names m); cbn; lia.
  - cbn [ApplyOperations assert_OpPackage deref_field bind].
    destruct (collect_package_names_pure (IsOpPackage package :: rest) [])
      as [[names ->] | [why ->]]; cbn; [ | lia].
    destruct (InstallPackages (PackageIgnoreSafety package) names m); cbn; lia.
  - cbn; lia.
  - cbn; lia.
  - cbn; lia.
  - cbn; lia.
Qed.

(** In a batch only the first element's ignore-safety flag counts: two
    GroupOp lists, or two PackageOp lists, with the same first element and
    the same names after it are dispatched alike, whatever flags the later
    elements carry. *)
Theorem ApplyOperations_later_flags_ignored
  (group0 : OpGroup) (groups groups' : list OpGroup)
  (package0 : OpPackage) (packages packages' : list OpPackage) (m : M) :
  map GroupName groups = map GroupName groups' ->
  map Name packages = map Name packages' ->
  apply_on (map IsOpGroup (group0 :: groups)) m
  = apply_on (map IsOpGroup (group0 :: groups')) m
  /\ apply_on (map IsOpPackage (package0 :: packages)) m
     = apply_on (map IsOpPackage (package0 :: packages')) m.
Proof.
  intros Hgroups Hpackages.
  unfold apply_on, ApplyOperations.
  cbn [map assert_OpGroup assert_OpPackage deref_field bind].
  change (IsOpGroup group0 :: map IsOpGroup groups)
    with (map IsOpGroup (group0 :: groups)).
  change (IsOpGroup group0 :: map IsOpGroup groups')
    with (map IsOpGroup (group0 :: groups')).
  change (IsOpPackage package0 :: map IsOpPackage packages)
    with (map IsOpPackage (package0 :: packages)).
  change (IsOpPackage package0 :: map IsOpPackage packages')
    with (map IsOpPackage (package0 :: packages')).
  rewrite !collect_group_names_groups, !collect_package_names_packages.
  cbn [map app]. rewrite Hgroups, Hpackages.
  split; reflexivity.
Qed.

End DispatcherErrors.

(** ** Further behaviour of the loader *)

Section LoaderMore.
Context {W : Type} `{Collaborators W}.
Variable Dir : string -> string.
Variable Join : string -> string -> string.

(** The collaborators are called in one fixed order and each at most once:
    nothing for a path without the suffix; otherwise [config.New] on the
    path, then, only if that succeeded, [filepath.Abs] on the path's
    directory, then, only if that succeeded too, the package-list parser on
    the join of the resolved directory with the configured filename. *)
Theorem NewImageSpec_calls_in_order (spinFile : string) (w : W) :
  let tr := log_of (load_on Dir Join spinFile w) in
  (HasSuffix spinFile ".spin" = false /\ tr = [])
  \/ (HasSuffix spinFile ".spin" = true
      /\ ((exists e,
             tr = [Log (R := LoaderAnswer) (CallConfigNew spinFile) (Err e)])
          \/ (exists conf e,
             tr = [Log (R := LoaderAnswer) (CallConfigNew spinFile) (Ok conf);
                   Log (R := LoaderAnswer)
                       (CallFilepathAbs (Dir spinFile)) (Err e)])
          \/ (exists conf dir parsed,
             tr = [Log (R := LoaderAnswer) (CallConfigNew spinFile) (Ok conf);
                   Log (R := LoaderAnswer)
                       (CallFilepathAbs (Dir spinFile)) (Ok dir);
                   Log (R := LoaderAnswer)
                       (CallParserParse (Join dir (Packages (Image conf))))
                       parsed]))).
Proof.
  cbv zeta; unfold load_on, NewImageSpec.
  destruct (HasSuffix spinFile ".spin");
    cbn [negb bind call run loader_handle]; [ | left; split; reflexivity].
  right; split; [reflexivity | ].
  destruct (config_New spinFile w) as [[conf | e] w1];
    cbn [bind run loader_handle]; [ | left; exists e; reflexivity].
  right.
  destruct (filepath_Abs (Dir spinFile) w1) as [[dir | e] w2];
    cbn [bind run loader_handle set_BaseDir BaseDir];
    [ | left; exists conf, e; reflexivity].
  right.
  destruct (parser_Parse (Join dir (Packages (Image conf))) w2)
    as [parsed w3].
  exists conf, dir, parsed.
  destruct parsed; reflexivity.
Qed.

(** When the path has the suffix and the three collaborators succeed one
    after the other, the load succeeds: the returned spec carries the stack
    the parser answered and the configuration [config.New] answered, and
    the world is left as the parser left it. *)
Theorem NewImageSpec_loads
  (spinFile : string) (w w1 w2 w3 : W)
  (conf : ImageConfiguration) (dir : string) (stack : OpStack) :
  HasSuffix spinFile ".spin" = true ->
  config_New spinFile w = (Ok conf, w1) ->
  filepath_Abs (Dir spinFile) w1 = (Ok dir, w2) ->
  parser_Parse (Join dir (Packages (Image conf))) w2 = (Ok stack, w3) ->
  exists loaded,
    outcome_of (load_on Dir Join spinFile w) = Done (Ok loaded)
    /\ state_of (load_on Dir Join spinFile w) = w3
    /\ Stack loaded = Some stack
    /\ Config loaded = Some conf.
Proof.
  intros Hsuffix Hconf Habs Hparse.
  unfold load_on, NewImageSpec; rewrite Hsuffix.
  cbn [negb bind call run loader_handle].
  rewrite Hconf; cbn [bind run loader_handle].
  rewrite Habs; cbn [bind run loader_handle set_BaseDir BaseDir].
  rewrite Hparse; cbn.
  eexists; repeat split.
Qed.

(** The loader gets as far as [config.New] exactly for the paths made of
    some text followed by [.spin]; the text may be empty. *)
Theorem NewImageSpec_accepts_spin_paths (spinFile : string) (w : W) :
  (exists front, spinFile = (front ++ ".spin")%string)
  <-> map called (firstn 1 (log_of (load_on Dir Join spinFile w)))
      = [CallConfigNew spinFile].
Proof.
  rewrite <- HasSuffix_ends_with.
  unfold load_on, NewImageSpec.
  destruct (HasSuffix spinFile ".spin");
    cbn [negb bind call run loader_handle].
  - destruct (config_New spinFile w) as [loaded w1].
    destruct (run loader_handle _ w1) as [[o w2] tr].
    cbn; split; reflexivity.
  - cbn; split; discriminate.
Qed.

(** A spec is returned only after everything was read: the path has the
    suffix, [config.New], [filepath.Abs] and the package-list parser all
    succeeded, in that order and each on the world the previous one left,
    and the returned stack and configuration are the ones they answered. *)
Theorem NewImageSpec_success_needs_all
  (spinFile : string) (w : W) (loaded : ImageSpec) :
  outcome_of (load_on Dir Join spinFile w) = Done (Ok loaded) ->
  HasSuffix spinFile ".spin" = true
  /\ exists conf dir stack w1 w2 w3,
       config_New spinFile w = (Ok conf, w1)
       /\ filepath_Abs (Dir spinFile) w1 = (Ok dir, w2)
       /\ parser_Parse (Join dir (Packages (Image conf))) w2 = (Ok stack, w3)
       /\ Stack loaded = Some stack
       /\ Config loaded = Some conf.
Proof.
  intros Hload.
  destruct (NewImageSpec_success Dir Join spinFile w loaded Hload)
    as (conf & dir & stack & w1 & w2 & w3
        & Hsuffix & Hconf & Habs & Hparse & _ & ->).
  split; [exact Hsuffix | ].
  exists conf, dir, stack, w1, w2, w3; repeat split; assumption.
Qed.

End LoaderMore.

(** ** More concrete runs *)

(** A GroupOp followed by a PackageOp. *)
Lemma ApplyOperations_stray_in_batch_witness :
  (kind_of (IsOpGroup group_g1) = GroupKind
   \/ kind_of (IsOpGroup group_g1) = PackageKind)
  /\ homogeneous group_then_package = false
  /\ apply_on group_then_package failing_first = (Panicked, failing_first, []).
Proof.
  split; [left; reflexivity | split; [reflexivity | ]].
  apply ApplyOperations_stray_in_batch; [left | ]; reflexivity.
Defined.

(** One repository, accepted, then a GroupOp: the repository stays added. *)
Lemma ApplyOperations_stray_after_repos_witness :
  kind_of (IsOpGroup group_g1) <> RepoKind
  /\ apply_on (map IsOpRepo [repo_a] ++ [IsOpGroup group_g1]) failing_second
     = (Panicked,
        {| script := [Some (CollaboratorError "repository unreachable")] |},
        [Log (R := ManagerAnswer) (CallAddRepo "a" "u1") None]).
Proof.
  assert (Hstray : kind_of (IsOpGroup group_g1) <> RepoKind) by discriminate.
  split; [exact Hstray | ].
  exact (ApplyOperations_stray_after_repos repo_a [] (IsOpGroup group_g1) []
           failing_second Hstray).
Defined.

(** Two repositories, both accepted. *)
Lemma ApplyOperations_nil_means_all_applied_witness :
  outcome_of (apply_on [IsOpRepo repo_a; IsOpRepo repo_b] always_nil) = Done None
  /\ Forall (fun l => answered l = None)
            (log_of (apply_on [IsOpRepo repo_a; IsOpRepo repo_b] always_nil)).
Proof.
  split; [reflexivity | ].
  exact (proj1 (ApplyOperations_nil_means_all_applied
                  [IsOpRepo repo_a; IsOpRepo repo_b] always_nil eq_refl)).
Defined.

(** Two repositories, the second refused: the error returned is the answer
    of the last call. *)
Lemma ApplyOperations_error_origin_witness :
  outcome_of (apply_on [IsOpRepo repo_a; IsOpRepo repo_b] failing_second)
  = Done (Some (CollaboratorError "repository unreachable"))
  /\ (([IsOpRepo repo_a; IsOpRepo repo_b] = []
       /\ CollaboratorError "repository unreachable" = ErrNotEnoughOps)
      \/ (exists other rest,
            [IsOpRepo repo_a; IsOpRepo repo_b] = other :: rest
            /\ kind_of other = OtherKind
            /\ CollaboratorError "repository unreachable" = ErrUnknownOperation)
      \/ (exists before l,
            log_of (apply_on [IsOpRepo repo_a; IsOpRepo repo_b] failing_second)
            = before ++ [l]
            /\ answered l = Some (CollaboratorError "repository unreachable"))).
Proof.
  split; [reflexivity | ].
  exact (ApplyOperations_error_origin
           [IsOpRepo repo_a; IsOpRepo repo_b] failing_second
           (CollaboratorError "repository unreachable") eq_refl).
Defined.

(** The second element's flag is cleared, or set: the batch is the same. *)
Lemma ApplyOperations_later_flags_ignored_witness :
  map GroupName [group_g2] = map GroupName [group_g2_safe]
  /\ map Name [package_p2] = map Name [package_p2_unsafe]
  /\ apply_on (map IsOpGroup [group_g1; group_g2]) always_nil
     = apply_on (map IsOpGroup [group_g1; group_g2_safe]) always_nil
  /\ apply_on (map IsOpPackage [package_p1; package_p2]) always_nil
     = apply_on (map IsOpPackage [package_p1; package_p2_unsafe]) always_nil.
Proof.
  split; [reflexivity | split; [reflexivity | ]].
  exact (ApplyOperations_later_flags_ignored
           group_g1 [group_g2] [group_g2_safe]
           package_p1 [package_p2] [package_p2_unsafe]
           always_nil eq_refl eq_refl).
Defined.

(** The complete spec at [/srv/images/solus.spin]. *)
Lemma NewImageSpec_loads_witness :
  HasSuffix "/srv/images/solus.spin" ".spin" = true
  /\ exists loaded,
       outcome_of (load_on Fake.Dir Fake.Join "/srv/images/solus.spin" solus_files)
       = Done (Ok loaded)
       /\ state_of (load_on Fake.Dir Fake.Join "/srv/images/solus.spin" solus_files)
          = solus_files
       /\ Stack loaded = Some solus_stack
       /\ Config loaded = Some solus_conf.
Proof.
  split; [reflexivity | ].
  exact (NewImageSpec_loads Fake.Dir Fake.Join
           "/srv/images/solus.spin" solus_files solus_files solus_files solus_files
           solus_conf "/srv/images" solus_stack
           eq_refl eq_refl eq_refl eq_refl).
Defined.

(** The bare suffix is a path the loader accepts. *)
Example NewImageSpec_accepts_bare_suffix :
  map called (log_of (load_on Fake.Dir Fake.Join ".spin" solus_files))
  = [CallConfigNew ".spin"].
Proof. reflexivity. Qed.

(** The load of the complete spec went through all three collaborators. *)
Lemma NewImageSpec_success_needs_all_witness :
  outcome_of (load_on Fake.Dir Fake.Join "/srv/images/solus.spin" solus_files)
  = Done (Ok {| Stack := Some solus_stack; Config := Some solus_conf;
                BaseDir := "" |})
  /\ HasSuffix "/srv/images/solus.spin" ".spin" = true.
Proof.
  split; [reflexivity | ].
  exact (proj1 (NewImageSpec_success_needs_all Fake.Dir Fake.Join
                  "/srv/images/solus.spin" solus_files _ eq_refl)).
Defined.

(** A nil [*spec.OpRepo] after an accepted repository: the first call is
    made, then reading [RepoName] through the nil pointer panics. *)
Example apply_repo_then_nil_repo :
  apply_on [IsOpRepo repo_a; NilOpRepo] always_nil
  = (Panicked, always_nil,
     [Log (R := ManagerAnswer) (CallAddRepo "a" "u1") None]).
Proof. reflexivity. Qed.

(** A nil [*spec.OpPackage] inside a PackageOp list: no call is made. *)
Example apply_package_then_nil_package :
  apply_on [IsOpPackage package_p1; NilOpPackage] always_nil
  = (Panicked, always_nil, []).
Proof. reflexivity. Qed.
